(** * EmployeesServiceMap: the in-memory employee index

    A shallow embedding of [src/service/employee/EmployeesServiceMap.ts],
    followed by the properties of the index that the specification states.

    Conventions of the embedding
    - An [Employee] object is represented by the contents of its fields.
      The objects handed to the service are the ones its callers build
      from a request body or from the file, which nothing else refers to;
      the service keeps each in its [Map] and hands the same object back.
      A write through a reference obtained from the map
      ([Object.assign(existing, ...)]) is therefore a replacement of the
      value stored under the same key, at the same position, and a write
      to the argument ([empl.id = id]) a change of the value that is then
      stored and returned. One object can sit under two keys only when
      the id of a record differs from its key; what is said of the other
      keys of the map after a write is said of indexes whose records are
      stored under their own ids.
    - A JavaScript [Map] iterates in insertion order, so it is an
      association list whose keys are pairwise distinct ([JsMap]).
    - A method of the class is a function in the monad [M]: it receives the
      fields of [this], and yields either the returned value or the thrown
      error together with the fields as they are at that moment.
    - [uuidv4()] is an external generator: the string it would return is an
      argument of [addEmployee].
    - Calls to [logger] have no effect on the service and are left out. *)

From Stdlib Require Import ZArith.
From Stdlib Require Import Ascii.
From stdpp Require Import base tactics option list strings.

(** ** JavaScript values *)

(** Truthiness of a string: every string but the empty one. *)
Definition truthy (s : string) : bool :=
  if decide (s = "") then false else true.

(** [a ?? b] on an optional string: [b] only when [a] is undefined. *)
Definition nullish_coalesce (a : option string) (b : string) : string :=
  match a with
  | Some v => v
  | None => b
  end.

(** ** The JavaScript [Map], keyed by strings *)

Module JsMap.
Abbreviation t V := (list (string * V)).

Section Ops.
Context {V : Type}.
Abbreviation t := (t V).

Definition empty : t := [].

Fixpoint get (k : string) (m : t) : option V :=
  match m with
  | [] => None
  | (k', v) :: m' => if decide (k' = k) then Some v else get k m'
  end.

Definition has (k : string) (m : t) : bool :=
  match get k m with
  | Some _ => true
  | None => false
  end.

(** [set] keeps the position of a key that is present and appends a
    new one. *)
Fixpoint set (k : string) (v : V) (m : t) : t :=
  match m with
  | [] => [(k, v)]
  | (k', v') :: m' =>
      if decide (k' = k) then (k, v) :: m' else (k', v') :: set k v m'
  end.

(** [delete] drops the entry under the key; the keys being distinct,
    there is at most one. *)
Definition delete (k : string) (m : t) : t :=
  filter (λ kv, kv.1 ≠ k) m.

Definition keys (m : t) : list string := m.*1.

Definition values (m : t) : list V := m.*2.

Definition size (m : t) : nat := length m.

(** The keys of a [Map] are pairwise distinct. *)
Definition wf (m : t) : Prop := NoDup (keys m).
End Ops.
End JsMap.

(** ** Data model *)

(** Modelled from the spec: the declaration [model/dtoTypes/Employee.ts] of
    the [Employee] type is not among the sources. Its fields are the ones
    of section 3 of the specification; [id] is optional, as
    [empl.id ?? uuidv4()] in [addEmployee] requires, and [avatar] is
    optional as the specification says. The date is carried as the string
    it has in a request body, the salary as an integer; the service never
    computes with either. *)
Record Employee : Type := mkEmployee {
  id : option string;
  fullName : string;
  avatar : option string;
  department : string;
  birthDate : string;
  salary : Z
}.

(** [Partial<Employee>]: every field may be absent. A field that is
    present has a value, as in a parsed request body. *)
Record PartialEmployee : Type := mkPartial {
  patch_id : option string;
  patch_fullName : option string;
  patch_avatar : option string;
  patch_department : option string;
  patch_birthDate : option string;
  patch_salary : option Z
}.

(** [empl.id = key] *)
Definition assign_id (key : string) (empl : Employee) : Employee :=
  {| id := Some key;
     fullName := fullName empl;
     avatar := avatar empl;
     department := department empl;
     birthDate := birthDate empl;
     salary := salary empl |}.

(** [Object.assign(target, source)]: every property that [source] owns
    overwrites the one of [target], [id] included. *)
Definition Object_assign (target : Employee) (source : PartialEmployee)
  : Employee :=
  {| id := match patch_id source with
           | Some v => Some v
           | None => id target
           end;
     fullName := default (fullName target) (patch_fullName source);
     avatar := match patch_avatar source with
               | Some v => Some v
               | None => avatar target
               end;
     department := default (department target) (patch_department source);
     birthDate := default (birthDate target) (patch_birthDate source);
     salary := default (salary target) (patch_salary source) |}.

(** ** Errors and the method monad *)

(** [model/errorTypes/employeeErrors.ts]: both errors carry the id. *)
Inductive Error : Type :=
  | AlreadyExistsError (key : string)
  | NotFoundError (key : string).

Inductive Result (A : Type) : Type :=
  | Returned (a : A)
  | Thrown (e : Error).
Global Arguments Returned {A} a.
Global Arguments Thrown {A} e.

(** The private fields of [EmployeesServiceMap]. *)
Record Service : Type := mkService {
  _employees : JsMap.t Employee;
  _isUpdated : bool
}.

Definition M (A : Type) : Type := Service → Result A * Service.

Global Instance M_ret : MRet M := λ A a s, (Returned a, s).

Global Instance M_bind : MBind M := λ A B f m s,
  match m s with
  | (Returned a, s') => f a s'
  | (Thrown e, s') => (Thrown e, s')
  end.

Definition throw {A : Type} (e : Error) : M A := λ s, (Thrown e, s).

(** Reading [this] and writing one of its fields. *)
Definition this : M Service := λ s, (Returned s, s).

Definition write_employees (m : JsMap.t Employee) : M unit :=
  λ s, (Returned (), {| _employees := m; _isUpdated := _isUpdated s |}).

Definition write_isUpdated (b : bool) : M unit :=
  λ s, (Returned (), {| _employees := _employees s; _isUpdated := b |}).

(** [for (const x of xs) body] *)
Fixpoint for_of {A : Type} (xs : list A) (body : A → M unit) : M unit :=
  match xs with
  | [] => mret ()
  | x :: xs' => body x ;; for_of xs' body
  end.

(** The value a call returned or the error it threw, and the service it
    left behind. *)
Definition outcome {A : Type} (r : Result A * Service) : Result A := r.1.
Definition after {A : Type} (r : Result A * Service) : Service := r.2.

(** ** The methods of [EmployeesServiceMap] *)

Definition _fillEmployeeMap (employees : list Employee) : M unit :=
  write_employees JsMap.empty ;;
  for_of employees (λ employee,
    match id employee with
    | Some key =>
        if truthy key then
          s ← this;
          write_employees (JsMap.set key employee (_employees s))
        else mret ()
    | None => mret ()
    end).

(** [fileStorage.loadEmployees()] is the external store: what it returns
    is the argument [loaded]. *)
Definition _loadFromFile (loaded : list Employee) : M unit :=
  _fillEmployeeMap loaded.

(** [new EmployeesServiceMap(isUpdated)]: the field initialiser, then the
    body of the constructor. *)
Definition new (isUpdated : bool) (loaded : list Employee) : Service :=
  after (_loadFromFile loaded
           {| _employees := JsMap.empty; _isUpdated := isUpdated |}).

(** [export const employeesService = new EmployeesServiceMap()] *)
Definition employeesService (loaded : list Employee) : Service :=
  new false loaded.

Definition addEmployee (empl : Employee) (uuid : string) : M Employee :=
  let key := nullish_coalesce (id empl) uuid in
  s ← this;
  if JsMap.has key (_employees s) then throw (AlreadyExistsError key)
  else
    let empl' := assign_id key empl in
    write_employees (JsMap.set key empl' (_employees s)) ;;
    write_isUpdated true ;;
    mret empl'.

Definition getAll (department_arg : option string) : M (list Employee) :=
  s ← this;
  let all := JsMap.values (_employees s) in
  match department_arg with
  | Some d =>
      if truthy d then mret (filter (λ empl, department empl = d) all)
      else mret all
  | None => mret all
  end.

Definition _getById (key : string) : M Employee :=
  s ← this;
  match JsMap.get key (_employees s) with
  | None => throw (NotFoundError key)
  | Some existing => mret existing
  end.

(** [existing] is the object that the map holds under [key]:
    [Object.assign] changes it where it is. *)
Definition updateEmployee (key : string) (empl : PartialEmployee)
  : M Employee :=
  existing ← _getById key;
  let existing' := Object_assign existing empl in
  s ← this;
  write_employees (JsMap.set key existing' (_employees s)) ;;
  write_isUpdated true ;;
  mret existing'.

Definition deleteEmployee (key : string) : M Employee :=
  existing ← _getById key;
  s ← this;
  write_employees (JsMap.delete key (_employees s)) ;;
  write_isUpdated true ;;
  mret existing.

Definition toArray : M (list Employee) :=
  s ← this;
  mret (JsMap.values (_employees s)).

Definition isUpdated : M bool :=
  s ← this;
  mret (_isUpdated s).

(** One turn of the loop of [_fillEmployeeMap], on the map alone. *)
Definition fill_step (m : JsMap.t Employee) (employee : Employee)
  : JsMap.t Employee :=
  match id employee with
  | Some key => if truthy key then JsMap.set key employee m else m
  | None => m
  end.

(** ** The invariant of the index and the services that can arise *)

(** An entry of the map is keyed by the id of its record, and that id is
    not the empty string. *)
Definition keyed_by_id (kv : string * Employee) : Prop :=
  id kv.2 = Some kv.1 ∧ kv.1 ≠ "".

Global Instance keyed_by_id_dec kv : Decision (keyed_by_id kv).
Proof. unfold keyed_by_id. apply _. Defined.

Definition index_invariant (m : JsMap.t Employee) : Prop :=
  Forall keyed_by_id m.

(** The services that the constructor and the methods produce. A call that
    throws leaves the service as it was. *)
Inductive reachable : Service → Prop :=
  | reachable_new isUpdated loaded :
      reachable (new isUpdated loaded)
  | reachable_fill s employees :
      reachable s → reachable (after (_fillEmployeeMap employees s))
  | reachable_add s empl uuid :
      reachable s → reachable (after (addEmployee empl uuid s))
  | reachable_update s key empl :
      reachable s → reachable (after (updateEmployee key empl s))
  | reachable_delete s key :
      reachable s → reachable (after (deleteEmployee key s)).

(** [reload(toSnapshot())]: the array of [toArray] handed back to
    [_fillEmployeeMap]. *)
Definition reload_snapshot : M unit :=
  snapshot ← toArray;
  _fillEmployeeMap snapshot.

(** Two records agree on every field but the id. *)
Definition same_details (a b : Employee) : Prop :=
  fullName a = fullName b ∧ avatar a = avatar b ∧
  department a = department b ∧ birthDate a = birthDate b ∧
  salary a = salary b.

(** ** Scenarios *)

Definition ann : Employee :=
  mkEmployee (Some "e1") "Ann" None "Eng" "1990-04-12" 5000.

Definition bob : Employee :=
  mkEmployee (Some "e2") "Bob" None "Sales" "1988-11-03" 4200.

(** The record of the scenario of section 8: no id. *)
Definition joe : Employee :=
  mkEmployee None "Joe" None "Sales" "1995-06-30" 1000.

(** A record whose id is the empty string. *)
Definition bad : Employee :=
  mkEmployee (Some "") "Bad" None "Eng" "1970-01-01" 0.

(** The body [{ "id": "e2" }] of a [PUT /api/employees/e1]. *)
Definition id_patch : PartialEmployee :=
  mkPartial (Some "e2") None None None None None.

Definition ann_as_e2 : Employee :=
  mkEmployee (Some "e2") "Ann" None "Eng" "1990-04-12" 5000.

Definition empty_service : Service := new false [].

Definition two_employees : Service := new false [ann; bob].

(** [two_employees] after [updateEmployee("e1", { id: "e2" })]. *)
Definition renamed_service : Service :=
  after (updateEmployee "e1" id_patch two_employees).

(** [empty_service] after [addEmployee({ id: "", ... })]. *)
Definition blank_id_service : Service :=
  after (addEmployee bad "3f0c9a52-7a41-4e0b-9c1d-2b6a8e5d4f10" empty_service).

(** The service that holds Bob, of department Sales, alone. *)
Definition sales_service : Service := new false [bob].

(** ** The callers: [src/controller/employeeController.ts] *)

(** What Express' query parser leaves in [req.query.department]: nothing
    when the parameter is absent, a string when it occurs once, an array
    when it is repeated, an object for the bracket syntax. The handler
    only asks whether it is a string. *)
Inductive QueryValue : Type :=
  | QueryUndefined
  | QueryString (value : string)
  | QueryArray (values : list string)
  | QueryObject (fields : list (string * string)).

(** What a handler sends: [res.status(code).json(payload)]. *)
Record Response (A : Type) : Type := mkResponse {
  status : nat;
  json : A
}.
Global Arguments mkResponse {A} status json.
Global Arguments status {A} r.
Global Arguments json {A} r.

(** The handlers act on the exported [employeesService]. A handler that
    returns has sent its response; an error that the service throws leaves
    the handler before [res] is touched. *)
Module Controller.

Definition getAllEmployees (query_department : QueryValue)
  : M (Response (list Employee)) :=
  let department_arg :=
    match query_department with
    | QueryString value => Some value
    | _ => None
    end in
  employees ← getAll department_arg;
  mret (mkResponse 200 employees).

(** [req.body] is the first argument; the second is what [uuidv4()] would
    answer inside [addEmployee]. *)
Definition createEmployee (body : Employee) (uuid : string)
  : M (Response Employee) :=
  addedEmployee ← addEmployee body uuid;
  mret (mkResponse 201 addedEmployee).

Definition updateEmployee (params_id : string) (body : PartialEmployee)
  : M (Response Employee) :=
  updated ← updateEmployee params_id body;
  mret (mkResponse 200 updated).

Definition deleteEmployee (params_id : string) : M (Response Employee) :=
  deleted ← deleteEmployee params_id;
  mret (mkResponse 200 deleted).

End Controller.

(** ** Sequences of calls *)

(** [evolves s s']: some sequence of calls of the methods takes the
    service [s] to [s']. *)
Inductive evolves (s : Service) : Service → Prop :=
  | evolves_refl : evolves s s
  | evolves_fill s' employees :
      evolves s s' → evolves s (after (_fillEmployeeMap employees s'))
  | evolves_add s' empl uuid :
      evolves s s' → evolves s (after (addEmployee empl uuid s'))
  | evolves_getAll s' department_arg :
      evolves s s' → evolves s (after (getAll department_arg s'))
  | evolves_update s' key empl :
      evolves s s' → evolves s (after (updateEmployee key empl s'))
  | evolves_delete s' key :
      evolves s s' → evolves s (after (deleteEmployee key s'))
  | evolves_toArray s' :
      evolves s s' → evolves s (after (toArray s'))
  | evolves_isUpdated s' :
      evolves s s' → evolves s (after (isUpdated s')).

(** The services that arise when no record is added under the empty id
    and no patch carries an id other than the one it is sent to. *)
Inductive disciplined : Service → Prop :=
  | disciplined_new isUpdated loaded :
      disciplined (new isUpdated loaded)
  | disciplined_fill s employees :
      disciplined s → disciplined (after (_fillEmployeeMap employees s))
  | disciplined_add s empl uuid :
      disciplined s →
      nullish_coalesce (id empl) uuid ≠ "" →
      disciplined (after (addEmployee empl uuid s))
  | disciplined_update s key empl :
      disciplined s →
      patch_id empl = None ∨ patch_id empl = Some key →
      disciplined (after (updateEmployee key empl s))
  | disciplined_delete s key :
      disciplined s → disciplined (after (deleteEmployee key s)).

(** The body [{}] of a [PUT]. *)
Definition empty_patch : PartialEmployee :=
  mkPartial None None None None None None.

(** The body [{ "department": "Ops", "salary": 5500 }] of a [PUT]. *)
Definition move_patch : PartialEmployee :=
  mkPartial None None None (Some "Ops") None (Some 5500%Z).

(** The last record of a list that carries the id [key], if any. *)
Definition last_with_id (key : string) (employees : list Employee)
  : option Employee :=
  last (filter (λ e, id e = Some key) employees).

(** A record has an id that [if (employee.id)] accepts. *)
Definition has_id (e : Employee) : Prop :=
  ∃ key, id e = Some key ∧ key ≠ "".

(** ** The identifiers of [uuidv4()] *)









(** * Properties *)

(** ** Facts about the [Map] operations *)

Section JsMapFacts.
Context {V : Type}.
Implicit Types (m : JsMap.t V) (k : string) (v : V).

Lemma JsMap_get_None k m : JsMap.get k m = None ↔ k ∉ JsMap.keys m.
Proof.
  induction m as [|[k' v'] m IH]; simpl.
  - split; [intros _; apply not_elem_of_nil | done].
  - rewrite not_elem_of_cons. case_decide; subst.
    + split; [done | intros [? _]; done].
    + rewrite IH. split; [by split | by intros [_ ?]].
Qed.

Lemma JsMap_get_Some_elem k v m : JsMap.get k m = Some v → (k, v) ∈ m.
Proof.
  induction m as [|[k' v'] m IH]; simpl; [done |].
  case_decide; subst.
  - intros [= ->]. apply list_elem_of_here.
  - intros H'. apply list_elem_of_further. auto.
Qed.

Lemma JsMap_elem_get k v m :
  JsMap.wf m → (k, v) ∈ m → JsMap.get k m = Some v.
Proof.
  unfold JsMap.wf. induction m as [|[k' v'] m IH]; simpl.
  - intros _ H'. by apply elem_of_nil in H'.
  - rewrite NoDup_cons. intros [Hk Hm]. rewrite elem_of_cons.
    intros [Heq | Hin].
    + injection Heq as -> ->. by rewrite decide_True.
    + rewrite decide_False; [auto |].
      intros ->. apply Hk. apply list_elem_of_fmap. by exists (k, v).
Qed.

Lemma JsMap_has_true k m : JsMap.has k m = true ↔ is_Some (JsMap.get k m).
Proof.
  unfold JsMap.has. destruct (JsMap.get k m) as [v|].
  - split; [by exists v | done].
  - split; [done | by intros [? ?]].
Qed.

Lemma JsMap_has_false k m : JsMap.has k m = false ↔ JsMap.get k m = None.
Proof. unfold JsMap.has. by destruct (JsMap.get k m). Qed.

Lemma JsMap_get_set_eq k v m : JsMap.get k (JsMap.set k v m) = Some v.
Proof.
  induction m as [|[k' v'] m IH]; simpl.
  - by rewrite decide_True.
  - destruct (decide (k' = k)) as [->|Hne]; simpl.
    + by rewrite decide_True.
    + by rewrite decide_False.
Qed.

Lemma JsMap_get_set_ne k k' v m :
  k ≠ k' → JsMap.get k' (JsMap.set k v m) = JsMap.get k' m.
Proof.
  intros Hne. induction m as [|[k0 v0] m IH]; simpl.
  - by rewrite decide_False.
  - destruct (decide (k0 = k)) as [->|]; simpl.
    + by rewrite !decide_False.
    + by rewrite IH.
Qed.

Lemma JsMap_set_fresh k v m :
  JsMap.get k m = None → JsMap.set k v m = m ++ [(k, v)].
Proof.
  induction m as [|[k' v'] m IH]; simpl; [done |].
  case_decide; [done |]. intros H'. by rewrite IH.
Qed.

Lemma JsMap_keys_set_present k v m :
  is_Some (JsMap.get k m) → JsMap.keys (JsMap.set k v m) = JsMap.keys m.
Proof.
  unfold JsMap.keys.
  induction m as [|[k' v'] m IH]; [by intros [? ?] |].
  intros H'. simpl in *.
  destruct (decide (k' = k)) as [->|Hne]; simpl; [done |].
  f_equal. by apply IH.
Qed.

Lemma JsMap_size_set_present k v m :
  is_Some (JsMap.get k m) → JsMap.size (JsMap.set k v m) = JsMap.size m.
Proof.
  intros H'. unfold JsMap.size.
  pose proof (f_equal length (JsMap_keys_set_present k v m H')) as Hlen.
  unfold JsMap.keys in Hlen. by rewrite !length_fmap in Hlen.
Qed.

Lemma JsMap_wf_set k v m : JsMap.wf m → JsMap.wf (JsMap.set k v m).
Proof.
  intros Hwf. destruct (JsMap.get k m) as [v0|] eqn:Hget.
  - unfold JsMap.wf. by rewrite JsMap_keys_set_present.
  - rewrite JsMap_set_fresh by done. unfold JsMap.wf, JsMap.keys.
    rewrite fmap_app. simpl. apply NoDup_app. split; [done |].
    split; [| apply NoDup_singleton].
    intros x Hx ->%list_elem_of_singleton.
    by apply JsMap_get_None in Hget.
Qed.

Lemma JsMap_delete_cons k k' v m :
  JsMap.delete k ((k', v) :: m) =
  if decide (k' = k) then JsMap.delete k m else (k', v) :: JsMap.delete k m.
Proof.
  unfold JsMap.delete. rewrite filter_cons. simpl.
  destruct (decide (k' = k)) as [->|Hne].
  - by rewrite decide_False by (intros Hk; by apply Hk).
  - by rewrite decide_True.
Qed.

Lemma JsMap_get_delete_eq k m : JsMap.get k (JsMap.delete k m) = None.
Proof.
  induction m as [|[k' v'] m IH]; [done |].
  rewrite JsMap_delete_cons.
  destruct (decide (k' = k)) as [->|Hne]; [done |].
  simpl. by rewrite decide_False.
Qed.

Lemma JsMap_get_delete_ne k k' m :
  k ≠ k' → JsMap.get k' (JsMap.delete k m) = JsMap.get k' m.
Proof.
  intros Hne. induction m as [|[k0 v0] m IH]; [done |].
  rewrite JsMap_delete_cons.
  destruct (decide (k0 = k)) as [->|Hne0]; simpl.
  - by rewrite decide_False.
  - by rewrite IH.
Qed.

Lemma JsMap_delete_absent k m :
  JsMap.get k m = None → JsMap.delete k m = m.
Proof.
  induction m as [|[k' v'] m IH]; [done |].
  rewrite JsMap_delete_cons. simpl.
  destruct (decide (k' = k)) as [->|Hne]; [done |].
  intros H'. by rewrite IH.
Qed.

Lemma JsMap_keys_delete k m :
  JsMap.keys (JsMap.delete k m) = filter (λ k', k' ≠ k) (JsMap.keys m).
Proof.
  unfold JsMap.keys. induction m as [|[k' v'] m IH]; [done |].
  rewrite JsMap_delete_cons, fmap_cons, filter_cons.
  cbn [fst]. destruct (decide (k' = k)) as [->|Hne].
  - by rewrite decide_False by (intros Hk; by apply Hk).
  - rewrite decide_True by done. by rewrite fmap_cons, IH.
Qed.

Lemma JsMap_wf_delete k m : JsMap.wf m → JsMap.wf (JsMap.delete k m).
Proof.
  unfold JsMap.wf. rewrite JsMap_keys_delete. apply NoDup_filter.
Qed.

Lemma JsMap_values_delete_size k v m :
  JsMap.wf m → JsMap.get k m = Some v →
  S (JsMap.size (JsMap.delete k m)) = JsMap.size m.
Proof.
  unfold JsMap.wf, JsMap.keys, JsMap.size.
  induction m as [|[k' v'] m IH]; [done |].
  rewrite fmap_cons, NoDup_cons, JsMap_delete_cons. simpl.
  intros [Hk Hm].
  destruct (decide (k' = k)) as [->|Hne]; simpl.
  - intros _. f_equal. rewrite JsMap_delete_absent; [done |].
    by apply JsMap_get_None.
  - intros H'. f_equal. by apply IH.
Qed.
End JsMapFacts.

Section JsMapForall.
Context {V : Type} (P : string * V → Prop).
Implicit Types (m : JsMap.t V) (k : string) (v : V).

Lemma JsMap_Forall_set k v m :
  Forall P m → P (k, v) → Forall P (JsMap.set k v m).
Proof.
  intros Hm Hkv. induction Hm as [|[k' v'] m Hx Hm IH]; simpl.
  - by apply Forall_singleton.
  - destruct (decide (k' = k)) as [->|Hne]; by apply Forall_cons.
Qed.

Lemma JsMap_Forall_delete k m : Forall P m → Forall P (JsMap.delete k m).
Proof.
  rewrite !Forall_forall. intros Hm x Hx.
  apply list_elem_of_filter in Hx as [_ Hx]. by apply Hm.
Qed.

Lemma JsMap_Forall_get k v m : Forall P m → JsMap.get k m = Some v → P (k, v).
Proof.
  intros Hm Hget. apply JsMap_get_Some_elem in Hget.
  by apply (proj1 (Forall_forall P m) Hm).
Qed.
End JsMapForall.

(** ** The equations of the methods *)

Lemma truthy_true s : truthy s = true ↔ s ≠ "".
Proof. unfold truthy. by case_decide. Qed.

Lemma truthy_false s : truthy s = false ↔ s = "".
Proof. unfold truthy. by case_decide. Qed.

Lemma _fillEmployeeMap_eq employees s :
  _fillEmployeeMap employees s =
  (Returned (),
   {| _employees := foldl fill_step JsMap.empty employees;
      _isUpdated := _isUpdated s |}).
Proof.
  unfold _fillEmployeeMap, mbind, M_bind, write_employees.
  generalize (@JsMap.empty Employee) as m.
  induction employees as [|e es IH]; intros m; simpl; [done |].
  unfold mbind, M_bind, fill_step.
  destruct (id e) as [key|]; [destruct (truthy key) |]; simpl; apply IH.
Qed.

Lemma addEmployee_present empl uuid s :
  JsMap.has (nullish_coalesce (id empl) uuid) (_employees s) = true →
  addEmployee empl uuid s =
  (Thrown (AlreadyExistsError (nullish_coalesce (id empl) uuid)), s).
Proof. intros H. unfold addEmployee, mbind, M_bind, this. by rewrite H. Qed.

Lemma addEmployee_absent empl uuid s :
  JsMap.has (nullish_coalesce (id empl) uuid) (_employees s) = false →
  addEmployee empl uuid s =
  let key := nullish_coalesce (id empl) uuid in
  (Returned (assign_id key empl),
   {| _employees := JsMap.set key (assign_id key empl) (_employees s);
      _isUpdated := true |}).
Proof. intros H. unfold addEmployee, mbind, M_bind, this. by rewrite H. Qed.

Lemma _getById_found key existing s :
  JsMap.get key (_employees s) = Some existing →
  _getById key s = (Returned existing, s).
Proof. intros H. unfold _getById, mbind, M_bind, this. by rewrite H. Qed.

Lemma _getById_missing key s :
  JsMap.get key (_employees s) = None →
  _getById key s = (Thrown (NotFoundError key), s).
Proof. intros H. unfold _getById, mbind, M_bind, this. by rewrite H. Qed.

Lemma updateEmployee_found key empl existing s :
  JsMap.get key (_employees s) = Some existing →
  updateEmployee key empl s =
  (Returned (Object_assign existing empl),
   {| _employees :=
        JsMap.set key (Object_assign existing empl) (_employees s);
      _isUpdated := true |}).
Proof.
  intros H. unfold updateEmployee, mbind, M_bind.
  by rewrite (_getById_found key existing s H).
Qed.

Lemma updateEmployee_missing key empl s :
  JsMap.get key (_employees s) = None →
  updateEmployee key empl s = (Thrown (NotFoundError key), s).
Proof.
  intros H. unfold updateEmployee, mbind, M_bind.
  by rewrite (_getById_missing key s H).
Qed.

Lemma deleteEmployee_found key existing s :
  JsMap.get key (_employees s) = Some existing →
  deleteEmployee key s =
  (Returned existing,
   {| _employees := JsMap.delete key (_employees s); _isUpdated := true |}).
Proof.
  intros H. unfold deleteEmployee, mbind, M_bind.
  by rewrite (_getById_found key existing s H).
Qed.

Lemma deleteEmployee_missing key s :
  JsMap.get key (_employees s) = None →
  deleteEmployee key s = (Thrown (NotFoundError key), s).
Proof.
  intros H. unfold deleteEmployee, mbind, M_bind.
  by rewrite (_getById_missing key s H).
Qed.

Lemma getAll_absent s :
  getAll None s = (Returned (JsMap.values (_employees s)), s).
Proof. done. Qed.

Lemma getAll_falsy s :
  getAll (Some "") s = (Returned (JsMap.values (_employees s)), s).
Proof. done. Qed.

Lemma getAll_truthy d s :
  d ≠ "" →
  getAll (Some d) s =
  (Returned (filter (λ empl, department empl = d)
               (JsMap.values (_employees s))), s).
Proof.
  intros Hd. unfold getAll, mbind, M_bind, this.
  by rewrite (proj2 (truthy_true d) Hd).
Qed.

Lemma fill_step_wf m e : JsMap.wf m → JsMap.wf (fill_step m e).
Proof.
  intros Hwf. unfold fill_step.
  destruct (id e) as [key|]; [destruct (truthy key) |]; try done.
  by apply JsMap_wf_set.
Qed.

Lemma fill_step_invariant m e :
  index_invariant m → index_invariant (fill_step m e).
Proof.
  intros Hm. unfold fill_step.
  destruct (id e) as [key|] eqn:Hid; [| done].
  destruct (truthy key) eqn:Hkey; [| done].
  apply JsMap_Forall_set; [done |].
  split; [done | by apply truthy_true].
Qed.

Lemma foldl_fill_step_wf employees m :
  JsMap.wf m → JsMap.wf (foldl fill_step m employees).
Proof.
  revert m. induction employees as [|e es IH]; intros m Hm; simpl; [done |].
  by apply IH, fill_step_wf.
Qed.

Lemma foldl_fill_step_invariant employees m :
  index_invariant m → index_invariant (foldl fill_step m employees).
Proof.
  revert m. induction employees as [|e es IH]; intros m Hm; simpl; [done |].
  by apply IH, fill_step_invariant.
Qed.

Lemma JsMap_wf_empty {V : Type} : JsMap.wf (@JsMap.empty V).
Proof. apply NoDup_nil_2. Qed.

Lemma _fillEmployeeMap_wf employees s :
  JsMap.wf (_employees (after (_fillEmployeeMap employees s))).
Proof.
  rewrite _fillEmployeeMap_eq. apply foldl_fill_step_wf, JsMap_wf_empty.
Qed.

(** [_fillEmployeeMap] establishes the invariant whatever it is given. *)
Lemma _fillEmployeeMap_invariant employees s :
  index_invariant (_employees (after (_fillEmployeeMap employees s))).
Proof.
  rewrite _fillEmployeeMap_eq.
  apply foldl_fill_step_invariant, Forall_nil_2.
Qed.

Lemma addEmployee_wf empl uuid s :
  JsMap.wf (_employees s) →
  JsMap.wf (_employees (after (addEmployee empl uuid s))).
Proof.
  intros Hwf.
  destruct (JsMap.has (nullish_coalesce (id empl) uuid) (_employees s))
    eqn:Hhas.
  - by rewrite addEmployee_present.
  - rewrite addEmployee_absent by done. by apply JsMap_wf_set.
Qed.

Lemma updateEmployee_wf key empl s :
  JsMap.wf (_employees s) →
  JsMap.wf (_employees (after (updateEmployee key empl s))).
Proof.
  intros Hwf. destruct (JsMap.get key (_employees s)) as [e|] eqn:Hget.
  - rewrite (updateEmployee_found key empl e s Hget). by apply JsMap_wf_set.
  - by rewrite updateEmployee_missing.
Qed.

Lemma deleteEmployee_wf key s :
  JsMap.wf (_employees s) →
  JsMap.wf (_employees (after (deleteEmployee key s))).
Proof.
  intros Hwf. destruct (JsMap.get key (_employees s)) as [e|] eqn:Hget.
  - rewrite (deleteEmployee_found key e s Hget). by apply JsMap_wf_delete.
  - by rewrite deleteEmployee_missing.
Qed.

(** The keys of the map of a reachable service are pairwise distinct. *)
Lemma reachable_wf s : reachable s → JsMap.wf (_employees s).
Proof.
  induction 1.
  - apply _fillEmployeeMap_wf.
  - apply _fillEmployeeMap_wf.
  - by apply addEmployee_wf.
  - by apply updateEmployee_wf.
  - by apply deleteEmployee_wf.
Qed.

(** What the operations do to the invariant when the id they store is in
    order. *)
Lemma addEmployee_invariant empl uuid s :
  index_invariant (_employees s) →
  nullish_coalesce (id empl) uuid ≠ "" →
  index_invariant (_employees (after (addEmployee empl uuid s))).
Proof.
  intros Hinv Hkey.
  destruct (JsMap.has (nullish_coalesce (id empl) uuid) (_employees s))
    eqn:Hhas.
  - by rewrite addEmployee_present.
  - rewrite addEmployee_absent by done. by apply JsMap_Forall_set.
Qed.

Lemma updateEmployee_invariant key empl s :
  index_invariant (_employees s) →
  patch_id empl = None ∨ patch_id empl = Some key →
  index_invariant (_employees (after (updateEmployee key empl s))).
Proof.
  intros Hinv Hpatch.
  destruct (JsMap.get key (_employees s)) as [e|] eqn:Hget.
  - rewrite (updateEmployee_found key empl e s Hget).
    destruct (JsMap_Forall_get keyed_by_id key e _ Hinv Hget) as [Hid Hne].
    apply JsMap_Forall_set; [done |]. split; [| done]. simpl in *.
    by destruct Hpatch as [-> | ->].
  - by rewrite updateEmployee_missing.
Qed.

Lemma deleteEmployee_invariant key s :
  index_invariant (_employees s) →
  index_invariant (_employees (after (deleteEmployee key s))).
Proof.
  intros Hinv. destruct (JsMap.get key (_employees s)) as [e|] eqn:Hget.
  - rewrite (deleteEmployee_found key e s Hget). by apply JsMap_Forall_delete.
  - by rewrite deleteEmployee_missing.
Qed.

(** Refilling an empty map from the values of a map that satisfies the
    invariant rebuilds that map, entry by entry and in the same order. *)
Lemma foldl_fill_step_values m acc :
  index_invariant m →
  NoDup (JsMap.keys (acc ++ m)) →
  foldl fill_step acc (JsMap.values m) = acc ++ m.
Proof.
  revert acc. induction m as [|[k e] m IH]; intros acc Hinv Hnd; simpl.
  - by rewrite app_nil_r.
  - apply Forall_cons in Hinv as [[Hid Hne] Hinv]. simpl in Hid, Hne.
    assert (JsMap.get k acc = None) as Hfresh.
    { apply JsMap_get_None. unfold JsMap.keys in *.
      rewrite fmap_app, fmap_cons in Hnd. simpl in Hnd.
      apply NoDup_app in Hnd as (_ & Hdisj & _).
      intros Hin. apply (Hdisj k Hin), list_elem_of_here. }
    unfold fill_step at 2. rewrite Hid, (proj2 (truthy_true k) Hne).
    rewrite (JsMap_set_fresh k e acc Hfresh).
    rewrite (IH (acc ++ [(k, e)]) Hinv).
    + by rewrite <- app_assoc.
    + by rewrite <- app_assoc.
Qed.

Lemma reload_snapshot_roundtrip s :
  JsMap.wf (_employees s) →
  index_invariant (_employees s) →
  reload_snapshot s = (Returned (), s).
Proof.
  intros Hwf Hinv. unfold reload_snapshot, toArray, mbind, M_bind, this.
  simpl. rewrite _fillEmployeeMap_eq.
  rewrite (foldl_fill_step_values (_employees s) JsMap.empty Hinv Hwf).
  by destruct s.
Qed.

(** ** The claims *)

(** C1. The claim: [update(id, patch)] returns a record whose [id] is still
    [id], also when the patch carries another [id]. The code at
    [updateEmployee("e1", { id: "e2" })] on an index that holds Ann under
    ["e1"]: the call returns Ann with [id] ["e2"], and that record stays
    stored under the key ["e1"]; the patch has altered the id field. *)
Theorem updateEmployee_patch_id_overwrites_id :
  updateEmployee "e1" id_patch (new false [ann]) =
    (Returned ann_as_e2,
     {| _employees := [("e1", ann_as_e2)]; _isUpdated := true |}) ∧
  id ann_as_e2 = Some "e2" ∧
  id ann_as_e2 ≠ Some "e1".
Proof. split; [reflexivity | split; [reflexivity | discriminate]]. Qed.

(** The same for every stored record and every patch that carries an id:
    the returned record, which is the stored one, has the id of the
    patch. *)
Lemma updateEmployee_takes_id_of_patch key empl existing v s :
  JsMap.get key (_employees s) = Some existing →
  patch_id empl = Some v →
  ∃ updated,
    outcome (updateEmployee key empl s) = Returned updated ∧
    JsMap.get key (_employees (after (updateEmployee key empl s)))
      = Some updated ∧
    id updated = Some v.
Proof.
  intros Hget Hpatch. exists (Object_assign existing empl).
  rewrite (updateEmployee_found key empl existing s Hget). simpl.
  split; [done |]. split; [apply JsMap_get_set_eq |]. by rewrite Hpatch.
Qed.

(** A patch without an id leaves the id field as it was. *)
Lemma updateEmployee_keeps_id_without_patch_id key empl existing s :
  JsMap.get key (_employees s) = Some existing →
  patch_id empl = None →
  ∃ updated,
    outcome (updateEmployee key empl s) = Returned updated ∧
    JsMap.get key (_employees (after (updateEmployee key empl s)))
      = Some updated ∧
    id updated = id existing.
Proof.
  intros Hget Hpatch. exists (Object_assign existing empl).
  rewrite (updateEmployee_found key empl existing s Hget). simpl.
  split; [done |]. split; [apply JsMap_get_set_eq |]. by rewrite Hpatch.
Qed.

(** C2. The claim: reload, add, update and delete all preserve that every
    stored record has a non-empty id and is stored under it. The code:
    [updateEmployee("e1", { id: "e2" })] takes an index that satisfies
    the invariant to one where the record under ["e1"] has id ["e2"], and
    [addEmployee] of a record whose id is the empty string stores it under
    the empty key. *)
Theorem index_invariant_not_preserved :
  index_invariant (_employees two_employees) ∧
  ¬ index_invariant (_employees renamed_service) ∧
  index_invariant (_employees empty_service) ∧
  _employees blank_id_service = [("", bad)] ∧
  ¬ index_invariant (_employees blank_id_service).
Proof.
  split; [| split; [| split; [| split]]].
  - apply (bool_decide_unpack _). by vm_compute.
  - apply (bool_decide_unpack _). by vm_compute.
  - apply Forall_nil_2.
  - reflexivity.
  - apply (bool_decide_unpack _). by vm_compute.
Qed.

(** What [_fillEmployeeMap] keeps: records of its input, each with an id
    that is not empty. A record without one is not inserted. *)
Lemma _fillEmployeeMap_skips_without_id employees s e :
  e ∈ JsMap.values (_employees (after (_fillEmployeeMap employees s))) →
  ∃ key, id e = Some key ∧ key ≠ "".
Proof.
  intros Hin. unfold JsMap.values in Hin.
  apply list_elem_of_fmap in Hin as [[k e'] [-> Hin]].
  pose proof (_fillEmployeeMap_invariant employees s) as Hinv.
  apply (proj1 (Forall_forall _ _) Hinv) in Hin as [Hid Hne].
  by exists k.
Qed.

(** C3. The claim: on every reachable index, [reload(toSnapshot())] leaves
    the records as they were. The code on two reachable indexes: after
    [updateEmployee("e1", { id: "e2" })] the index holds Ann and Bob and
    the reload leaves Bob alone; after [addEmployee] of a record whose id
    is the empty string the index holds that record and the reload leaves
    nothing. *)
Theorem reload_snapshot_loses_records :
  reachable renamed_service ∧
  _employees renamed_service = [("e1", ann_as_e2); ("e2", bob)] ∧
  _employees (after (reload_snapshot renamed_service)) = [("e2", bob)] ∧
  reachable blank_id_service ∧
  _employees blank_id_service = [("", bad)] ∧
  _employees (after (reload_snapshot blank_id_service)) = [].
Proof.
  split; [| split; [| split; [| split; [| split]]]]; try reflexivity.
  - apply reachable_update, reachable_new.
  - apply reachable_add, reachable_new.
Qed.

Lemma assign_id_same key empl : id empl = Some key → assign_id key empl = empl.
Proof. destruct empl; simpl; by intros ->. Qed.

Lemma addEmployee_explicit_present key empl uuid s :
  id empl = Some key →
  is_Some (JsMap.get key (_employees s)) →
  addEmployee empl uuid s = (Thrown (AlreadyExistsError key), s).
Proof.
  intros Hid Hget. rewrite addEmployee_present; rewrite Hid; simpl; [done |].
  by apply JsMap_has_true.
Qed.

(** C4. [addEmployee] throws [AlreadyExistsError] exactly when the map has
    the resulting id (the given one, or the generated one when none is
    given) as a key; it throws nothing else, and a call that throws leaves
    the service as it was. After a first call with an explicit id, a second
    call with that id throws and changes nothing; when the first call found
    the id free, the map is then the former map followed by the first
    record alone. *)
Theorem addEmployee_AlreadyExists empl uuid s :
  (outcome (addEmployee empl uuid s)
     = Thrown (AlreadyExistsError (nullish_coalesce (id empl) uuid))
   ↔ is_Some (JsMap.get (nullish_coalesce (id empl) uuid) (_employees s))) ∧
  (∀ e, outcome (addEmployee empl uuid s) = Thrown e →
        e = AlreadyExistsError (nullish_coalesce (id empl) uuid) ∧
        after (addEmployee empl uuid s) = s) ∧
  (∀ key second uuid',
     id empl = Some key → id second = Some key →
     addEmployee second uuid' (after (addEmployee empl uuid s))
       = (Thrown (AlreadyExistsError key), after (addEmployee empl uuid s)) ∧
     (JsMap.get key (_employees s) = None →
      outcome (addEmployee empl uuid s) = Returned empl ∧
      _employees (after (addEmployee empl uuid s))
        = _employees s ++ [(key, empl)])).
Proof.
  destruct (JsMap.has (nullish_coalesce (id empl) uuid) (_employees s))
    eqn:Hhas.
  - rewrite (addEmployee_present empl uuid s Hhas). simpl.
    split; [| split].
    + split; [intros _; by apply JsMap_has_true | done].
    + by intros e [= <-].
    + intros key second uuid' Hid Hid2. rewrite Hid in Hhas. simpl in Hhas.
      apply JsMap_has_true in Hhas. split.
      * by apply addEmployee_explicit_present.
      * destruct Hhas as [x Hx]. by rewrite Hx.
  - rewrite (addEmployee_absent empl uuid s Hhas). simpl.
    apply JsMap_has_false in Hhas. split; [| split].
    + split; [done | rewrite Hhas; by intros [? ?]].
    + done.
    + intros key second uuid' Hid Hid2. rewrite Hid in *. simpl in *.
      split.
      * apply addEmployee_explicit_present; [done |]. simpl.
        rewrite JsMap_get_set_eq. by eexists.
      * intros _. rewrite (assign_id_same key empl Hid).
        split; [done |]. by apply JsMap_set_fresh.
Qed.

(** C5. [updateEmployee] and [deleteEmployee] throw [NotFoundError] exactly
    when the map has no entry under the id; they throw nothing else, and a
    call that throws leaves the service, hence the size and the contents
    of the map, as it was. *)
Theorem update_delete_NotFound key empl s :
  (outcome (updateEmployee key empl s) = Thrown (NotFoundError key)
   ↔ JsMap.get key (_employees s) = None) ∧
  (outcome (deleteEmployee key s) = Thrown (NotFoundError key)
   ↔ JsMap.get key (_employees s) = None) ∧
  (∀ e, outcome (updateEmployee key empl s) = Thrown e →
        e = NotFoundError key ∧ after (updateEmployee key empl s) = s) ∧
  (∀ e, outcome (deleteEmployee key s) = Thrown e →
        e = NotFoundError key ∧ after (deleteEmployee key s) = s).
Proof.
  destruct (JsMap.get key (_employees s)) as [existing|] eqn:Hget.
  - rewrite (updateEmployee_found key empl existing s Hget).
    rewrite (deleteEmployee_found key existing s Hget). simpl.
    split; [done |]. split; [done |]. split; intros e He; discriminate He.
  - rewrite (updateEmployee_missing key empl s Hget).
    rewrite (deleteEmployee_missing key s Hget). simpl.
    split; [done |]. split; [done |].
    split; intros e He; by injection He as <-.
Qed.

(** C6, as stated, fails at the empty string: [getAll("")] on an index
    that holds Bob of department Sales returns Bob, whose department is
    not the empty string; the records whose department equals the
    argument are none. *)
Lemma getAll_empty_string_counterexample :
  outcome (getAll (Some "") sales_service) = Returned [bob] ∧
  filter (λ empl, department empl = "")
    (JsMap.values (_employees sales_service)) = [] ∧
  outcome (getAll (Some "") sales_service) ≠
    Returned (filter (λ empl, department empl = "")
                (JsMap.values (_employees sales_service))).
Proof. split; [reflexivity | split; [reflexivity | discriminate]]. Qed.

(** C6, amended. For a department string that is not empty, [getAll]
    returns the stored records whose department is that string, compared
    as strings, in the order of the map; without an argument it returns
    every stored record. Neither call changes the service. *)
Theorem getAll_filters_by_department d s :
  d ≠ "" →
  getAll (Some d) s =
    (Returned (filter (λ empl, department empl = d)
                 (JsMap.values (_employees s))), s) ∧
  getAll None s = (Returned (JsMap.values (_employees s)), s).
Proof. intros Hd. split; [by apply getAll_truthy | apply getAll_absent]. Qed.

Lemma getAll_filters_by_department_witness :
  "Sales" ≠ "" ∧
  getAll (Some "Sales") two_employees = (Returned [bob], two_employees) ∧
  getAll None two_employees = (Returned [ann; bob], two_employees).
Proof.
  split; [discriminate |].
  apply (getAll_filters_by_department "Sales" two_employees). discriminate.
Defined.

(** C10. [getAll("")] returns every stored record, as [getAll()] does: the
    filter is applied to a non-empty department only. *)
Theorem getAll_empty_string_is_unfiltered s :
  getAll (Some "") s = getAll None s ∧
  getAll (Some "") s = (Returned (JsMap.values (_employees s)), s).
Proof. split; reflexivity. Qed.

Lemma filter_none {A : Type} (P : A → Prop) `{!∀ x, Decision (P x)}
    (l : list A) :
  Forall (λ x, ¬ P x) l → filter P l = [].
Proof.
  induction 1 as [|x l Hx Hl IH]; [done |].
  rewrite filter_cons. by rewrite decide_False.
Qed.






Lemma index_invariant_delete_ids key m :
  index_invariant m →
  Forall (λ e, id e ≠ Some key) (JsMap.values (JsMap.delete key m)).
Proof.
  intros Hinv. unfold JsMap.values. apply Forall_fmap, Forall_forall.
  intros [k e] Hin. apply list_elem_of_filter in Hin as [Hk Hin].
  apply (proj1 (Forall_forall _ _) Hinv) in Hin as [Hid _].
  simpl in *. rewrite Hid. by intros [= ->].
Qed.

(** What [deleteEmployee] does for an id under which the map has a
    record: it returns that record and removes its entry; the id is no
    longer a key, [getAll()] returns the records of the other entries, of
    which there is one less, and a second [deleteEmployee] of the id throws
    [NotFoundError]. On an index whose records are stored under their own
    ids, no record that [getAll()] returns has the deleted id. *)
Theorem deleteEmployee_removes key existing s :
  JsMap.get key (_employees s) = Some existing →
  ∃ s',
    deleteEmployee key s = (Returned existing, s') ∧
    JsMap.get key (_employees s') = None ∧
    getAll None s'
      = (Returned (JsMap.values (JsMap.delete key (_employees s))), s') ∧
    (JsMap.wf (_employees s) →
     S (JsMap.size (_employees s')) = JsMap.size (_employees s)) ∧
    (index_invariant (_employees s) →
     Forall (λ e, id e ≠ Some key) (JsMap.values (_employees s'))) ∧
    deleteEmployee key s' = (Thrown (NotFoundError key), s').
Proof.
  intros Hget. eexists. split; [by apply deleteEmployee_found |]. simpl.
  split; [apply JsMap_get_delete_eq |]. split; [done |].
  split; [intros Hwf; by eapply JsMap_values_delete_size |].
  split; [apply index_invariant_delete_ids |].
  apply deleteEmployee_missing. simpl. apply JsMap_get_delete_eq.
Qed.

Lemma deleteEmployee_removes_witness :
  ∃ s',
    deleteEmployee "e1" two_employees = (Returned ann, s') ∧
    JsMap.get "e1" (_employees s') = None ∧
    getAll None s'
      = (Returned (JsMap.values
                     (JsMap.delete "e1" (_employees two_employees))), s') ∧
    (JsMap.wf (_employees two_employees) →
     S (JsMap.size (_employees s')) = JsMap.size (_employees two_employees)) ∧
    (index_invariant (_employees two_employees) →
     Forall (λ e, id e ≠ Some "e1") (JsMap.values (_employees s'))) ∧
    deleteEmployee "e1" s' = (Thrown (NotFoundError "e1"), s').
Proof. apply (deleteEmployee_removes "e1" ann two_employees). reflexivity. Defined.

(** C8. The claim: after [delete(id)] no record of [getAll()] has that
    id. The code on the index that [updateEmployee("e1", { id: "e2" })]
    left, where Ann is stored under ["e1"] with id ["e2"] and Bob under
    ["e2"]: [deleteEmployee("e2")] returns Bob and removes his entry, and
    [getAll()] still returns Ann, whose id is ["e2"]. *)
Theorem deleteEmployee_leaves_record_with_deleted_id :
  reachable renamed_service ∧
  _employees renamed_service = [("e1", ann_as_e2); ("e2", bob)] ∧
  deleteEmployee "e2" renamed_service =
    (Returned bob,
     {| _employees := [("e1", ann_as_e2)]; _isUpdated := true |}) ∧
  getAll None (after (deleteEmployee "e2" renamed_service)) =
    (Returned [ann_as_e2], after (deleteEmployee "e2" renamed_service)) ∧
  id ann_as_e2 = Some "e2".
Proof.
  split; [apply reachable_update, reachable_new |].
  repeat split; reflexivity.
Qed.

(** C9. A call of [addEmployee], [updateEmployee] or [deleteEmployee] that
    returns leaves the flag [_isUpdated] set; [isUpdated()] returns the
    flag and leaves the service, flag and map, as it was. *)
Theorem mutations_set_flag_and_isUpdated_is_pure s :
  (∀ empl uuid r,
     outcome (addEmployee empl uuid s) = Returned r →
     _isUpdated (after (addEmployee empl uuid s)) = true) ∧
  (∀ key empl r,
     outcome (updateEmployee key empl s) = Returned r →
     _isUpdated (after (updateEmployee key empl s)) = true) ∧
  (∀ key r,
     outcome (deleteEmployee key s) = Returned r →
     _isUpdated (after (deleteEmployee key s)) = true) ∧
  isUpdated s = (Returned (_isUpdated s), s).
Proof.
  split; [| split; [| split; [| reflexivity]]].
  - intros empl uuid r.
    destruct (JsMap.has (nullish_coalesce (id empl) uuid) (_employees s))
      eqn:Hhas.
    + by rewrite (addEmployee_present empl uuid s Hhas).
    + by rewrite (addEmployee_absent empl uuid s Hhas).
  - intros key empl r.
    destruct (JsMap.get key (_employees s)) as [existing|] eqn:Hget.
    + by rewrite (updateEmployee_found key empl existing s Hget).
    + by rewrite (updateEmployee_missing key empl s Hget).
  - intros key r.
    destruct (JsMap.get key (_employees s)) as [existing|] eqn:Hget.
    + by rewrite (deleteEmployee_found key existing s Hget).
    + by rewrite (deleteEmployee_missing key s Hget).
Qed.

(** ** The scenarios of section 8 of the specification *)

(** Reloading [[{id: "", fullName: "Bad"}, {id: "e1", fullName: "Ann"}]]
    leaves ["e1"] alone in the map, and the call returns. *)
Example reload_skips_the_record_without_id s :
  _fillEmployeeMap [bad; ann] s =
  (Returned (), {| _employees := [("e1", ann)]; _isUpdated := _isUpdated s |}).
Proof. by rewrite _fillEmployeeMap_eq. Qed.

(** Adding Joe, who has no id, to the exported service returns Joe with
    the generated id, and [isUpdated()] then answers true. *)
Example add_joe_sets_the_flag uuid :
  outcome (addEmployee joe uuid (employeesService [])) =
    Returned (assign_id uuid joe) ∧
  outcome (isUpdated (employeesService [])) = Returned false ∧
  outcome (isUpdated (after (addEmployee joe uuid (employeesService [])))) =
    Returned true.
Proof. done. Qed.

(** [update("missing-id", ...)] throws and the size of the map stays. *)
Example update_missing_id empl :
  outcome (updateEmployee "missing-id" empl two_employees) =
    Thrown (NotFoundError "missing-id") ∧
  JsMap.size (_employees (after (updateEmployee "missing-id" empl
                                   two_employees))) =
    JsMap.size (_employees two_employees).
Proof. done. Qed.

(** * Further properties of the service *)

(** ** More facts about the [Map] operations *)

Section JsMapMoreFacts.
Context {V : Type}.
Implicit Types (m : JsMap.t V) (k : string) (v : V).

Lemma JsMap_get_app k m1 m2 :
  JsMap.get k (m1 ++ m2) =
  match JsMap.get k m1 with
  | Some v => Some v
  | None => JsMap.get k m2
  end.
Proof.
  induction m1 as [|[k' v'] m1 IH]; simpl; [done |].
  by destruct (decide (k' = k)).
Qed.

Lemma JsMap_set_set k v v' m :
  JsMap.set k v (JsMap.set k v' m) = JsMap.set k v m.
Proof.
  induction m as [|[k0 v0] m IH]; simpl.
  - by rewrite decide_True.
  - destruct (decide (k0 = k)) as [->|Hne]; simpl.
    + by rewrite decide_True.
    + rewrite decide_False by done. by rewrite IH.
Qed.

Lemma JsMap_set_same k v m : JsMap.get k m = Some v → JsMap.set k v m = m.
Proof.
  induction m as [|[k0 v0] m IH]; simpl; [done |].
  destruct (decide (k0 = k)) as [->|Hne].
  - by intros [= ->].
  - intros Hget. by rewrite IH.
Qed.


Lemma JsMap_values_delete_sublist k m :
  JsMap.values (JsMap.delete k m) `sublist_of` JsMap.values m.
Proof.
  unfold JsMap.values, JsMap.delete. apply fmap_sublist, sublist_filter.
Qed.
End JsMapMoreFacts.

Lemma Object_assign_twice e p :
  Object_assign (Object_assign e p) p = Object_assign e p.
Proof.
  destruct e, p as [pid pname pav pdep pbd psal]. unfold Object_assign. simpl.
  by destruct pid, pname, pav, pdep, pbd, psal.
Qed.

Lemma Object_assign_empty e : Object_assign e empty_patch = e.
Proof. by destruct e. Qed.

(** ** [updateEmployee] *)



(** X2. Sending the same patch to the same id a second time changes
    nothing more: the second call returns what the first returned, or
    throws what it threw, and leaves the service the first call left. *)
Theorem updateEmployee_twice key empl s :
  updateEmployee key empl (after (updateEmployee key empl s))
    = updateEmployee key empl s.
Proof.
  destruct (JsMap.get key (_employees s)) as [existing|] eqn:Hget.
  - rewrite (updateEmployee_found key empl existing s Hget). simpl.
    rewrite (updateEmployee_found key empl (Object_assign existing empl));
      simpl.
    + by rewrite Object_assign_twice, JsMap_set_set.
    + apply JsMap_get_set_eq.
  - rewrite (updateEmployee_missing key empl s Hget). simpl.
    by apply updateEmployee_missing.
Qed.

(** X3. A patch without any field changes no record, yet the call marks
    the index as updated: the stored record is returned as it is, the map
    stays, and [_isUpdated] is set. *)
Theorem updateEmployee_empty_patch key existing s :
  JsMap.get key (_employees s) = Some existing →
  updateEmployee key empty_patch s =
  (Returned existing, {| _employees := _employees s; _isUpdated := true |}).
Proof.
  intros Hget. rewrite (updateEmployee_found key empty_patch existing s Hget).
  rewrite Object_assign_empty. by rewrite (JsMap_set_same key existing _ Hget).
Qed.

Lemma updateEmployee_empty_patch_witness :
  updateEmployee "e2" empty_patch two_employees =
  (Returned bob,
   {| _employees := _employees two_employees; _isUpdated := true |}).
Proof. apply (updateEmployee_empty_patch "e2" bob two_employees). reflexivity. Defined.

(** ** [addEmployee] and [deleteEmployee] *)

Lemma addEmployee_returned empl uuid stored s :
  outcome (addEmployee empl uuid s) = Returned stored →
  JsMap.get (nullish_coalesce (id empl) uuid) (_employees s) = None ∧
  stored = assign_id (nullish_coalesce (id empl) uuid) empl ∧
  after (addEmployee empl uuid s) =
    {| _employees :=
         _employees s ++ [(nullish_coalesce (id empl) uuid, stored)];
       _isUpdated := true |}.
Proof.
  destruct (JsMap.has (nullish_coalesce (id empl) uuid) (_employees s))
    eqn:Hhas.
  - by rewrite (addEmployee_present empl uuid s Hhas).
  - rewrite (addEmployee_absent empl uuid s Hhas). simpl.
    apply JsMap_has_false in Hhas. intros [= <-].
    by rewrite (JsMap_set_fresh _ _ _ Hhas).
Qed.





(** X6. A successful [deleteEmployee] takes one entry out and leaves the
    others where they are: the keys that remain are the former keys
    without the deleted one, in their order, [toArray()] is a subsequence
    of what it was, and every other key holds what it held. *)
Theorem deleteEmployee_touches_one_record key existing s :
  JsMap.get key (_employees s) = Some existing →
  JsMap.keys (_employees (after (deleteEmployee key s)))
    = filter (λ k, k ≠ key) (JsMap.keys (_employees s)) ∧
  JsMap.values (_employees (after (deleteEmployee key s)))
    `sublist_of` JsMap.values (_employees s) ∧
  (∀ other, other ≠ key →
     JsMap.get other (_employees (after (deleteEmployee key s)))
       = JsMap.get other (_employees s)).
Proof.
  intros Hget. rewrite (deleteEmployee_found key existing s Hget). simpl.
  split; [apply JsMap_keys_delete |].
  split; [apply JsMap_values_delete_sublist |].
  intros other Hne. apply JsMap_get_delete_ne. by intros ->.
Qed.

Lemma deleteEmployee_touches_one_record_witness :
  JsMap.keys (_employees (after (deleteEmployee "e1" two_employees)))
    = ["e2"] ∧
  JsMap.get "e2" (_employees (after (deleteEmployee "e1" two_employees)))
    = Some bob.
Proof.
  destruct (deleteEmployee_touches_one_record "e1" ann two_employees eq_refl)
    as (Hkeys & _ & Hother).
  split; [exact Hkeys |]. rewrite (Hother "e2"); [reflexivity | discriminate].
Defined.

(** ** [_fillEmployeeMap] and the constructor *)

Lemma fill_step_get_other key m e :
  id e ≠ Some key → JsMap.get key (fill_step m e) = JsMap.get key m.
Proof.
  intros Hid. unfold fill_step. destruct (id e) as [k|]; [| done].
  destruct (truthy k); [| done]. apply JsMap_get_set_ne. congruence.
Qed.

Lemma foldl_fill_step_get key employees m :
  key ≠ "" →
  JsMap.get key (foldl fill_step m employees) =
  match last_with_id key employees with
  | Some e => Some e
  | None => JsMap.get key m
  end.
Proof.
  intros Hkey. unfold last_with_id. revert m.
  induction employees as [|e es IH]; intros m; [done |].
  simpl foldl. rewrite IH, filter_cons.
  destruct (decide (id e = Some key)) as [Hid|Hid].
  - rewrite last_cons.
    destruct (last (filter (λ e0, id e0 = Some key) es)); [done |].
    unfold fill_step. rewrite Hid, (proj2 (truthy_true key) Hkey).
    apply JsMap_get_set_eq.
  - destruct (last (filter (λ e0, id e0 = Some key) es)); [done |].
    by apply fill_step_get_other.
Qed.

Lemma foldl_fill_step_get_empty_key employees m :
  JsMap.get "" (foldl fill_step m employees) = JsMap.get "" m.
Proof.
  revert m. induction employees as [|e es IH]; intros m; [done |].
  simpl foldl. rewrite IH. unfold fill_step.
  destruct (id e) as [k|] eqn:Hid; [| done].
  destruct (truthy k) eqn:Hk; [| done].
  apply JsMap_get_set_ne. by apply truthy_true.
Qed.

Lemma _fillEmployeeMap_get key employees s :
  JsMap.get key (_employees (after (_fillEmployeeMap employees s))) =
  if decide (key = "") then None else last_with_id key employees.
Proof.
  rewrite _fillEmployeeMap_eq. simpl.
  destruct (decide (key = "")) as [->|Hkey].
  - apply foldl_fill_step_get_empty_key.
  - rewrite (foldl_fill_step_get key employees _ Hkey).
    by destruct (last_with_id key employees).
Qed.

(** X7. After [_fillEmployeeMap], a key holds the last record of the input
    that carries it as its id: of several records with one id the later
    one wins, an id that no record carries is absent, and so is the empty
    string whatever the input holds. What the map held before plays no
    part. *)
Theorem _fillEmployeeMap_last_wins key employees s :
  JsMap.get key (_employees (after (_fillEmployeeMap employees s))) =
  if decide (key = "") then None else last_with_id key employees.
Proof. apply _fillEmployeeMap_get. Qed.

Lemma foldl_fill_step_distinct employees acc :
  Forall has_id employees →
  NoDup (id <$> employees) →
  (∀ e key, e ∈ employees → id e = Some key → JsMap.get key acc = None) →
  foldl fill_step acc employees =
  acc ++ ((λ e, (default "" (id e), e)) <$> employees).
Proof.
  revert acc. induction employees as [|e es IH]; intros acc Hids Hnd Hfree.
  - simpl. by rewrite app_nil_r.
  - apply Forall_cons in Hids as [(key & Hid & Hkey) Hids].
    rewrite fmap_cons in Hnd. apply NoDup_cons in Hnd as [Hnotin Hnd].
    simpl foldl. unfold fill_step at 2.
    rewrite Hid, (proj2 (truthy_true key) Hkey).
    rewrite (JsMap_set_fresh key e acc)
      by (apply (Hfree e key); [apply list_elem_of_here | done]).
    rewrite (IH _ Hids Hnd).
    + rewrite fmap_cons, Hid. simpl. by rewrite <- app_assoc.
    + intros e' key' Hin Hid'. rewrite JsMap_get_app.
      rewrite (Hfree e' key' (list_elem_of_further _ _ _ Hin) Hid').
      simpl. rewrite decide_False; [done |].
      intros ->. apply Hnotin. rewrite Hid, <- Hid'.
      by apply list_elem_of_fmap_2.
Qed.

(** X8. When the loaded records all have an id that is not empty and no
    two share one, the index holds exactly them, in the order of the file:
    [toArray()] on the new service gives the loaded list back. *)
Theorem toArray_after_load isUpdated loaded :
  Forall has_id loaded →
  NoDup (id <$> loaded) →
  toArray (new isUpdated loaded) = (Returned loaded, new isUpdated loaded).
Proof.
  intros Hids Hnd.
  unfold toArray, mbind, M_bind, this, mret, M_ret, new, _loadFromFile.
  rewrite _fillEmployeeMap_eq. simpl. do 2 f_equal.
  rewrite (foldl_fill_step_distinct loaded JsMap.empty Hids Hnd) by done.
  unfold JsMap.values, JsMap.empty. simpl.
  rewrite <- list_fmap_compose. apply list_fmap_id.
Qed.

Lemma toArray_after_load_witness :
  toArray (new false [ann; bob]) = (Returned [ann; bob], new false [ann; bob]).
Proof.
  apply (toArray_after_load false [ann; bob]).
  - repeat constructor.
    + exists "e1". split; [reflexivity | discriminate].
    + exists "e2". split; [reflexivity | discriminate].
  - apply (bool_decide_unpack _). by vm_compute.
Defined.

(** X9. The new service holds records of the loaded list only, unaltered,
    each with an id that is not empty; every loaded record with such an id
    has its id among the keys; and the flag is the constructor's argument
    whatever was loaded or skipped. *)
Theorem new_holds_loaded_records isUpdated loaded :
  (∀ e, e ∈ JsMap.values (_employees (new isUpdated loaded)) →
        e ∈ loaded ∧ has_id e) ∧
  (∀ e key, e ∈ loaded → id e = Some key → key ≠ "" →
            is_Some (JsMap.get key (_employees (new isUpdated loaded)))) ∧
  _isUpdated (new isUpdated loaded) = isUpdated.
Proof.
  unfold new, _loadFromFile. split; [| split].
  - intros e Hin. unfold JsMap.values in Hin.
    apply list_elem_of_fmap in Hin as [[k e'] [-> Hin]]. simpl.
    pose proof (_fillEmployeeMap_wf loaded
                  {| _employees := JsMap.empty; _isUpdated := isUpdated |})
      as Hwf.
    pose proof (JsMap_elem_get k e' _ Hwf Hin) as Hget.
    rewrite _fillEmployeeMap_get in Hget.
    destruct (decide (k = "")) as [->|Hk]; [done |].
    unfold last_with_id in Hget. apply last_Some in Hget as [l' Hl'].
    assert (e' ∈ filter (λ e, id e = Some k) loaded) as Hfil.
    { rewrite Hl'. apply elem_of_app. right. apply list_elem_of_here. }
    apply list_elem_of_filter in Hfil as [Hid Hmem].
    split; [done |]. by exists k.
  - intros e key Hin Hid Hkey. rewrite _fillEmployeeMap_get.
    rewrite decide_False by done. unfold last_with_id.
    destruct (last (filter (λ e0, id e0 = Some key) loaded)) eqn:Hlast;
      [by eexists |].
    apply last_None in Hlast.
    assert (e ∈ filter (λ e0, id e0 = Some key) loaded) as Hfil
      by (by apply list_elem_of_filter).
    rewrite Hlast in Hfil. by apply elem_of_nil in Hfil.
  - by rewrite _fillEmployeeMap_eq.
Qed.

(** X17. On an index whose records are stored under their own ids, a
    record that [deleteEmployee] returned can be added again as it is: the
    id is free, [addEmployee] returns the record unchanged whatever the
    generator would answer, and the record is stored under its former key,
    now behind the others. *)
Theorem deleteEmployee_then_addEmployee key existing uuid s :
  index_invariant (_employees s) →
  JsMap.get key (_employees s) = Some existing →
  addEmployee existing uuid (after (deleteEmployee key s)) =
  (Returned existing,
   {| _employees := JsMap.delete key (_employees s) ++ [(key, existing)];
      _isUpdated := true |}).
Proof.
  intros Hinv Hget.
  destruct (JsMap_Forall_get keyed_by_id key existing _ Hinv Hget)
    as [Hid _].
  simpl in Hid. rewrite (deleteEmployee_found key existing s Hget). simpl.
  pose proof (JsMap_get_delete_eq key (_employees s)) as Hgone.
  rewrite addEmployee_absent; rewrite Hid; simpl.
  - rewrite (assign_id_same key existing Hid).
    by rewrite (JsMap_set_fresh key existing _ Hgone).
  - by apply JsMap_has_false.
Qed.

Lemma deleteEmployee_then_addEmployee_witness :
  addEmployee ann "k-1" (after (deleteEmployee "e1" two_employees)) =
  (Returned ann,
   {| _employees := JsMap.delete "e1" (_employees two_employees)
                      ++ [("e1", ann)];
      _isUpdated := true |}).
Proof.
  apply (deleteEmployee_then_addEmployee "e1" ann "k-1" two_employees).
  - apply (bool_decide_unpack _). by vm_compute.
  - reflexivity.
Defined.

(** ** Sequences of calls *)

Lemma index_invariant_ids m :
  index_invariant m → id <$> JsMap.values m = Some <$> JsMap.keys m.
Proof.
  unfold JsMap.values, JsMap.keys.
  induction 1 as [|[k e] m [Hid _] _ IH]; [done |].
  rewrite !fmap_cons. simpl in *. by rewrite Hid, IH.
Qed.

Lemma disciplined_invariant s :
  disciplined s → index_invariant (_employees s).
Proof.
  induction 1 as [b loaded | s l _ _ | s e u _ IH Hkey | s k p _ IH Hp
                 | s k _ IH].
  - apply _fillEmployeeMap_invariant.
  - apply _fillEmployeeMap_invariant.
  - by apply addEmployee_invariant.
  - by apply updateEmployee_invariant.
  - by apply deleteEmployee_invariant.
Qed.

Lemma disciplined_reachable s : disciplined s → reachable s.
Proof. induction 1; by constructor. Qed.

(** X10. As long as no record is added under the empty id and no patch
    carries an id other than the one it is sent to, every service that
    the constructor and the methods produce keeps each record under its
    own non-empty id; the records of [toArray()] then have pairwise
    distinct ids, and handing [toArray()] back to [_fillEmployeeMap]
    leaves the service as it is. *)
Theorem disciplined_index s :
  disciplined s →
  index_invariant (_employees s) ∧
  NoDup (id <$> JsMap.values (_employees s)) ∧
  reload_snapshot s = (Returned (), s).
Proof.
  intros Hs. pose proof (disciplined_invariant s Hs) as Hinv.
  pose proof (reachable_wf s (disciplined_reachable s Hs)) as Hwf.
  split; [done |]. split.
  - rewrite (index_invariant_ids _ Hinv).
    by apply (NoDup_fmap_2 Some).
  - by apply reload_snapshot_roundtrip.
Qed.

Lemma disciplined_index_witness :
  index_invariant
    (_employees (after (updateEmployee "e1" move_patch
                          (after (addEmployee joe "k-1" two_employees))))) ∧
  NoDup (id <$> JsMap.values
    (_employees (after (updateEmployee "e1" move_patch
                          (after (addEmployee joe "k-1" two_employees)))))) ∧
  reload_snapshot (after (updateEmployee "e1" move_patch
                            (after (addEmployee joe "k-1" two_employees))))
  = (Returned (),
     after (updateEmployee "e1" move_patch
              (after (addEmployee joe "k-1" two_employees)))).
Proof.
  apply (disciplined_index
           (after (updateEmployee "e1" move_patch
                     (after (addEmployee joe "k-1" two_employees))))).
  apply disciplined_update; [| by left].
  apply disciplined_add; [apply disciplined_new | discriminate].
Defined.

Lemma addEmployee_flag empl uuid s :
  _isUpdated s = true → _isUpdated (after (addEmployee empl uuid s)) = true.
Proof.
  intros Hs.
  destruct (JsMap.has (nullish_coalesce (id empl) uuid) (_employees s))
    eqn:Hhas.
  - by rewrite (addEmployee_present empl uuid s Hhas).
  - by rewrite (addEmployee_absent empl uuid s Hhas).
Qed.

Lemma updateEmployee_flag key empl s :
  _isUpdated s = true → _isUpdated (after (updateEmployee key empl s)) = true.
Proof.
  intros Hs. destruct (JsMap.get key (_employees s)) as [e|] eqn:Hget.
  - by rewrite (updateEmployee_found key empl e s Hget).
  - by rewrite (updateEmployee_missing key empl s Hget).
Qed.

Lemma deleteEmployee_flag key s :
  _isUpdated s = true → _isUpdated (after (deleteEmployee key s)) = true.
Proof.
  intros Hs. destruct (JsMap.get key (_employees s)) as [e|] eqn:Hget.
  - by rewrite (deleteEmployee_found key e s Hget).
  - by rewrite (deleteEmployee_missing key s Hget).
Qed.

Lemma getAll_after department_arg s : after (getAll department_arg s) = s.
Proof.
  unfold getAll, mbind, M_bind, this.
  destruct department_arg as [d|]; [| done]. by destruct (truthy d).
Qed.

(** X11. No method clears the flag: once [_isUpdated] is set it stays set
    through every sequence of calls, [toArray()], which hands the records
    out for saving, and [_fillEmployeeMap] included. *)
Theorem flag_is_never_cleared s s' :
  evolves s s' → _isUpdated s = true → _isUpdated s' = true.
Proof.
  intros Hev Hs.
  induction Hev as [| s' l _ IH | s' e u _ IH | s' d _ IH | s' k p _ IH
                    | s' k _ IH | s' _ IH | s' _ IH].
  - done.
  - by rewrite _fillEmployeeMap_eq.
  - by apply addEmployee_flag.
  - by rewrite getAll_after.
  - by apply updateEmployee_flag.
  - by apply deleteEmployee_flag.
  - done.
  - done.
Qed.

Lemma flag_is_never_cleared_witness :
  _isUpdated
    (after (_fillEmployeeMap []
       (after (toArray
          (after (deleteEmployee "e1" two_employees)))))) = true.
Proof.
  apply (flag_is_never_cleared (after (deleteEmployee "e1" two_employees))).
  - apply evolves_fill, evolves_toArray, evolves_refl.
  - reflexivity.
Defined.

(** X12. On a service that the constructor and the methods produce, the
    number of records moves with the outcome of a call: [addEmployee]
    adds one when it returns and none when it throws, [updateEmployee]
    never changes it, [deleteEmployee] takes one away when it returns and
    none when it throws. *)
Theorem size_follows_outcome s :
  reachable s →
  (∀ empl uuid,
     JsMap.size (_employees (after (addEmployee empl uuid s))) =
     match outcome (addEmployee empl uuid s) with
     | Returned _ => S (JsMap.size (_employees s))
     | Thrown _ => JsMap.size (_employees s)
     end) ∧
  (∀ key empl,
     JsMap.size (_employees (after (updateEmployee key empl s))) =
     JsMap.size (_employees s)) ∧
  (∀ key,
     match outcome (deleteEmployee key s) with
     | Returned _ =>
         S (JsMap.size (_employees (after (deleteEmployee key s))))
     | Thrown _ => JsMap.size (_employees (after (deleteEmployee key s)))
     end = JsMap.size (_employees s)).
Proof.
  intros Hs. pose proof (reachable_wf s Hs) as Hwf. split; [| split].
  - intros empl uuid.
    destruct (JsMap.has (nullish_coalesce (id empl) uuid) (_employees s))
      eqn:Hhas.
    + by rewrite (addEmployee_present empl uuid s Hhas).
    + rewrite (addEmployee_absent empl uuid s Hhas). simpl.
      apply JsMap_has_false in Hhas. rewrite (JsMap_set_fresh _ _ _ Hhas).
      unfold JsMap.size. rewrite length_app. simpl. lia.
  - intros key empl.
    destruct (JsMap.get key (_employees s)) as [e|] eqn:Hget.
    + rewrite (updateEmployee_found key empl e s Hget). simpl.
      apply JsMap_size_set_present. by rewrite Hget.
    + by rewrite (updateEmployee_missing key empl s Hget).
  - intros key.
    destruct (JsMap.get key (_employees s)) as [e|] eqn:Hget.
    + rewrite (deleteEmployee_found key e s Hget). simpl.
      by apply (JsMap_values_delete_size key e).
    + by rewrite (deleteEmployee_missing key s Hget).
Qed.

Lemma size_follows_outcome_witness :
  JsMap.size (_employees (after (addEmployee joe "k-1" two_employees))) = 3 ∧
  JsMap.size (_employees (after (addEmployee ann "k-1" two_employees))) = 2 ∧
  S (JsMap.size (_employees (after (deleteEmployee "e2" two_employees)))) = 2.
Proof.
  destruct (size_follows_outcome two_employees (reachable_new false [ann; bob]))
    as (Hadd & _ & Hdel).
  split; [exact (Hadd joe "k-1") |].
  split; [exact (Hadd ann "k-1") | exact (Hdel "e2")].
Defined.

(** ** [getAll] *)

(** X13. [getAll] never throws and never changes the service, whatever its
    argument; what it returns is a subsequence of [toArray()], so the
    records keep the order of the map; and for a non-empty department that
    no stored record has it returns the empty list, and only then. *)
Theorem getAll_is_read_only department_arg s :
  ∃ result,
    getAll department_arg s = (Returned result, s) ∧
    result `sublist_of` JsMap.values (_employees s) ∧
    (∀ d, department_arg = Some d → d ≠ "" →
       (result = [] ↔
        Forall (λ e, department e ≠ d) (JsMap.values (_employees s)))).
Proof.
  destruct department_arg as [d|].
  - destruct (decide (d = "")) as [->|Hd].
    + eexists. split; [apply getAll_falsy |]. split; [done |].
      by intros d [= <-] Hd.
    + eexists. split; [by apply getAll_truthy |].
      split; [apply sublist_filter |].
      intros d' [= <-] _. split.
      * intros Hnil. apply Forall_forall. intros e Hin Hdep.
        by apply (filter_nil_not_elem_of _ _ e Hnil Hdep).
      * apply filter_none.
  - eexists. split; [apply getAll_absent |]. split; [done |].
    by intros d [=].
Qed.

(** * Properties of the handlers *)

Lemma addEmployee_stores_entry empl uuid stored s :
  outcome (addEmployee empl uuid s) = Returned stored →
  ∃ key,
    id stored = Some key ∧
    same_details stored empl ∧
    _employees (after (addEmployee empl uuid s))
      = _employees s ++ [(key, stored)].
Proof.
  intros Hout.
  destruct (addEmployee_returned empl uuid stored s Hout)
    as (_ & Hstored & Hafter).
  exists (nullish_coalesce (id empl) uuid). rewrite Hafter. simpl.
  split; [by rewrite Hstored |]. split; [by rewrite Hstored | done].
Qed.

Lemma getAllEmployees_list_all s :
  Controller.getAllEmployees QueryUndefined s =
  (Returned (mkResponse 200 (JsMap.values (_employees s))), s).
Proof. done. Qed.

(** X14. [getAllEmployees] always answers, with status 200, and leaves the
    service as it is. Only a [department] query value that is a non-empty
    string filters: a parameter that is absent, repeated (an array),
    written with brackets (an object) or empty gets every record. *)
Theorem getAllEmployees_answers query_department s :
  Controller.getAllEmployees query_department s =
  (Returned
     (mkResponse 200
        match query_department with
        | QueryString d =>
            if decide (d = "") then JsMap.values (_employees s)
            else filter (λ empl, department empl = d)
                   (JsMap.values (_employees s))
        | _ => JsMap.values (_employees s)
        end), s).
Proof.
  unfold Controller.getAllEmployees, mbind, M_bind.
  destruct query_department as [|d|l|o]; try done.
  destruct (decide (d = "")) as [->|Hd]; [done |].
  by rewrite (getAll_truthy d s Hd).
Qed.

(** X15. When [createEmployee] answers, the status is 201, the body is the
    stored record and carries an id, and a [getAllEmployees] without
    department that follows answers with the records that were there
    followed by that body. *)
Theorem createEmployee_then_list body uuid response s :
  outcome (Controller.createEmployee body uuid s) = Returned response →
  status response = 201 ∧
  (∃ key, id (json response) = Some key) ∧
  same_details (json response) body ∧
  Controller.getAllEmployees QueryUndefined
    (after (Controller.createEmployee body uuid s)) =
  (Returned (mkResponse 200 (JsMap.values (_employees s) ++ [json response])),
   after (Controller.createEmployee body uuid s)).
Proof.
  unfold Controller.createEmployee, mbind, M_bind.
  destruct (addEmployee body uuid s) as [[stored|e] s'] eqn:Hadd; [| done].
  simpl. intros [= <-]. simpl.
  assert (outcome (addEmployee body uuid s) = Returned stored) as Hout
    by (by rewrite Hadd).
  destruct (addEmployee_stores_entry body uuid stored s Hout)
    as (key & Hid & Hsame & Hentries).
  rewrite Hadd in Hentries. simpl in Hentries.
  split; [done |]. split; [by exists key |]. split; [done |].
  rewrite getAllEmployees_list_all, Hentries.
  unfold JsMap.values. by rewrite fmap_app.
Qed.

Lemma createEmployee_then_list_witness :
  status (mkResponse 201 (assign_id "k-1" joe)) = 201 ∧
  (∃ key, id (json (mkResponse 201 (assign_id "k-1" joe))) = Some key) ∧
  same_details (json (mkResponse 201 (assign_id "k-1" joe))) joe ∧
  Controller.getAllEmployees QueryUndefined
    (after (Controller.createEmployee joe "k-1" two_employees)) =
  (Returned
     (mkResponse 200
        (JsMap.values (_employees two_employees)
           ++ [json (mkResponse 201 (assign_id "k-1" joe))])),
   after (Controller.createEmployee joe "k-1" two_employees)).
Proof.
  apply (createEmployee_then_list joe "k-1"
           (mkResponse 201 (assign_id "k-1" joe)) two_employees).
  reflexivity.
Defined.

(** X16. When [deleteEmployee] answers, the status is 200 and the body is
    the record that was stored under the id of the path; an
    [updateEmployee] or a second [deleteEmployee] for that id then throws
    [NotFoundError] with that id, sends nothing and changes nothing. *)
Theorem deleteEmployee_then_update params_id response s :
  outcome (Controller.deleteEmployee params_id s) = Returned response →
  status response = 200 ∧
  JsMap.get params_id (_employees s) = Some (json response) ∧
  (∀ body,
     Controller.updateEmployee params_id body
       (after (Controller.deleteEmployee params_id s)) =
     (Thrown (NotFoundError params_id),
      after (Controller.deleteEmployee params_id s))) ∧
  Controller.deleteEmployee params_id
    (after (Controller.deleteEmployee params_id s)) =
  (Thrown (NotFoundError params_id),
   after (Controller.deleteEmployee params_id s)).
Proof.
  unfold Controller.deleteEmployee, Controller.updateEmployee, mbind, M_bind.
  destruct (JsMap.get params_id (_employees s)) as [existing|] eqn:Hget.
  - rewrite (deleteEmployee_found params_id existing s Hget). simpl.
    intros [= <-]. simpl. split; [done |]. split; [done |].
    pose proof (JsMap_get_delete_eq params_id (_employees s)) as Hgone.
    split.
    + intros body. by rewrite updateEmployee_missing.
    + by rewrite deleteEmployee_missing.
  - by rewrite (deleteEmployee_missing params_id s Hget).
Qed.

Lemma deleteEmployee_then_update_witness :
  status (mkResponse 200 ann) = 200 ∧
  JsMap.get "e1" (_employees two_employees) = Some (json (mkResponse 200 ann)) ∧
  (∀ body,
     Controller.updateEmployee "e1" body
       (after (Controller.deleteEmployee "e1" two_employees)) =
     (Thrown (NotFoundError "e1"),
      after (Controller.deleteEmployee "e1" two_employees))) ∧
  Controller.deleteEmployee "e1"
    (after (Controller.deleteEmployee "e1" two_employees)) =
  (Thrown (NotFoundError "e1"),
   after (Controller.deleteEmployee "e1" two_employees)).
Proof.
  apply (deleteEmployee_then_update "e1" (mkResponse 200 ann) two_employees).
  reflexivity.
Defined.
